(** * Verification model of src/ollamatest.ts (MCP stdio client and agent loop)

    Shallow embedding of the parts of [ollamatest.ts] that the
    specification talks about:
    - JavaScript string operations used by the stream detector
      ([String.prototype.includes], [split], [trim], [Array.join]);
    - JSON values as [JSON.parse] produces them, JS property access and
      truthiness;
    - [MCPStdioClient]: [sendMessage], [listTools], [callTool], [stop],
      as explicit state passing over a client state;
    - the streaming tool-call detector inside [getStreamedResponse] and the
      final history step of the [rl.on("line")] handler in [main];
    - the schema conversion of [getOllamaCompatibleTools]. *)

From Stdlib Require Import String Ascii List ZArith Bool Lia.
From Stdlib Require Import Numbers.DecimalString.
Import ListNotations.
Open Scope string_scope.
Set Warnings "-register-all".

(* ================================================================== *)
(** ** JavaScript strings *)

Definition nl : string := String (ascii_of_nat 10) EmptyString.

(** [s.startsWith(p)] *)
Definition starts_with (p s : string) : bool := String.prefix p s.

Fixpoint drop (n : nat) (s : string) : string :=
  match n, s with
  | O, _ => s
  | S n', String _ s' => drop n' s'
  | S _, EmptyString => EmptyString
  end.

(** [s.includes(p)] *)
Fixpoint js_includes (p s : string) : bool :=
  starts_with p s ||
  match s with
  | EmptyString => false
  | String _ s' => js_includes p s'
  end.

(** First occurrence of [sep] in [s]: the text before it and the text
    after it. *)
Fixpoint find_sep (sep s : string) : option (string * string) :=
  if starts_with sep s then Some (EmptyString, drop (String.length sep) s)
  else match s with
       | EmptyString => None
       | String c s' =>
           match find_sep sep s' with
           | Some (b, a) => Some (String c b, a)
           | None => None
           end
       end.

Fixpoint split_fuel (fuel : nat) (sep s : string) : list string :=
  match fuel with
  | O => [s]
  | S f =>
      match find_sep sep s with
      | None => [s]
      | Some (b, a) => b :: split_fuel f sep a
      end
  end.

(** [s.split(sep)] for a non-empty separator: occurrences are cut from
    left to right without overlap. *)
Definition js_split (sep s : string) : list string :=
  split_fuel (S (String.length s)) sep s.

(** JS white space and line terminators in the range U+0000..U+00FF
    (TAB, LF, VT, FF, CR, SP, NBSP). *)
Definition js_ws (c : ascii) : bool :=
  match nat_of_ascii c with
  | 9 | 10 | 11 | 12 | 13 | 32 | 160 => true
  | _ => false
  end.

Fixpoint trim_start (s : string) : string :=
  match s with
  | String c s' => if js_ws c then trim_start s' else s
  | EmptyString => EmptyString
  end.

Fixpoint rev_string (s : string) : string :=
  match s with
  | EmptyString => EmptyString
  | String c s' => rev_string s' ++ String c EmptyString
  end.

(** [s.trim()] *)
Definition js_trim (s : string) : string :=
  rev_string (trim_start (rev_string (trim_start s))).

(** [xs.join(sep)] on strings *)
Fixpoint join (sep : string) (xs : list string) : string :=
  match xs with
  | [] => EmptyString
  | [x] => x
  | x :: xs' => x ++ sep ++ join sep xs'
  end.

(* ================================================================== *)
(** ** JSON values and JavaScript property access *)

Inductive json : Type :=
| JNull
| JBool (b : bool)
| JNum (n : Z)
| JStr (s : string)
| JArr (l : list json)
| JObj (fields : list (string * json)).

(** Property lookup on an object built by [JSON.parse]: the last
    occurrence of a duplicated key wins. *)
Fixpoint assoc_last {A} (k : string) (fs : list (string * A)) : option A :=
  match fs with
  | [] => None
  | (k', v) :: fs' =>
      match assoc_last k fs' with
      | Some w => Some w
      | None => if String.eqb k k' then Some v else None
      end
  end.

(** [o[k] = v] on a JS object: an existing key keeps its position. *)
Fixpoint obj_set {A} (o : list (string * A)) (k : string) (v : A)
  : list (string * A) :=
  match o with
  | [] => [(k, v)]
  | (k', w) :: o' =>
      if String.eqb k k' then (k', v) :: o' else (k', w) :: obj_set o' k v
  end.

(** [v.k] where [v] may be [undefined] ([None]).  The outer [None] is the
    [TypeError] thrown on [null] and [undefined]; the inner [None] is
    [undefined]. *)
Definition js_member (v : option json) (k : string) : option (option json) :=
  match v with
  | None | Some JNull => None
  | Some (JObj fs) => Some (assoc_last k fs)
  | Some _ => Some None
  end.

(** JS truthiness of a value ([undefined] is falsy). *)
Definition js_truthy (v : option json) : bool :=
  match v with
  | None | Some JNull => false
  | Some (JBool b) => b
  | Some (JNum n) => negb (Z.eqb n 0)
  | Some (JStr s) => negb (String.eqb s EmptyString)
  | Some (JArr _) | Some (JObj _) => true
  end.

Definition Z_to_string (z : Z) : string :=
  NilEmpty.string_of_int (Z.to_int z).

(** [String(v)] as used by template literals. *)
Fixpoint js_to_string (v : json) : string :=
  match v with
  | JNull => "null"
  | JBool true => "true"
  | JBool false => "false"
  | JNum n => Z_to_string n
  | JStr s => s
  | JArr l =>
      (* [Array.prototype.toString] joins with "," and prints null as "" *)
      let fix elems (l : list json) : list string :=
        match l with
        | [] => []
        | JNull :: l' => EmptyString :: elems l'
        | x :: l' => js_to_string x :: elems l'
        end in
      join "," (elems l)
  | JObj _ => "[object Object]"
  end.

Definition js_to_string_opt (v : option json) : string :=
  match v with
  | None => "undefined"
  | Some v => js_to_string v
  end.

(* ================================================================== *)
(** ** [JSON.parse]

    The detector is verified for any parser (it is a parameter of the
    sections below); this concrete one evaluates the examples.  It covers
    objects, arrays, strings with the simple escapes, integers, [true],
    [false] and [null]; it rejects fractions, exponents and [\u] escapes,
    which the examples do not use.  Objects are built with [obj_set], so a
    duplicated key keeps its first position and its last value. *)

Definition json_ws (c : ascii) : bool :=
  match nat_of_ascii c with
  | 9 | 10 | 13 | 32 => true
  | _ => false
  end.

Fixpoint skip_ws (l : list ascii) : list ascii :=
  match l with
  | c :: l' => if json_ws c then skip_ws l' else l
  | [] => []
  end.

Definition is_digit (c : ascii) : bool :=
  let n := nat_of_ascii c in Nat.leb 48 n && Nat.leb n 57.

Definition digit_value (c : ascii) : Z := Z.of_nat (nat_of_ascii c - 48).

(** The double quote, code 34. *)
Definition quote_char : ascii := ascii_of_nat 34.
Definition quoted (s : string) : string :=
  String quote_char (s ++ String quote_char EmptyString).

(** Characters of a string literal after the opening quote. *)
Fixpoint parse_chars (l : list ascii) : option (string * list ascii) :=
  match l with
  | [] => None
  | c :: l' =>
      if Ascii.eqb c quote_char then Some (EmptyString, l')
      else if Ascii.eqb c "\"%char then
        match l' with
        | e :: l'' =>
            let out :=
              if Ascii.eqb e quote_char then Some quote_char
              else if Ascii.eqb e "\"%char then Some "\"%char
              else if Ascii.eqb e "/"%char then Some "/"%char
              else if Ascii.eqb e "n"%char then Some (ascii_of_nat 10)
              else if Ascii.eqb e "t"%char then Some (ascii_of_nat 9)
              else if Ascii.eqb e "r"%char then Some (ascii_of_nat 13)
              else if Ascii.eqb e "b"%char then Some (ascii_of_nat 8)
              else if Ascii.eqb e "f"%char then Some (ascii_of_nat 12)
              else None in
            match out with
            | Some d =>
                match parse_chars l'' with
                | Some (s, r) => Some (String d s, r)
                | None => None
                end
            | None => None
            end
        | [] => None
        end
      else if Nat.ltb (nat_of_ascii c) 32 then None
      else match parse_chars l' with
           | Some (s, r) => Some (String c s, r)
           | None => None
           end
  end.

Fixpoint parse_digits (acc : Z) (l : list ascii) : Z * list ascii :=
  match l with
  | c :: l' => if is_digit c then parse_digits (acc * 10 + digit_value c) l'
               else (acc, l)
  | [] => (acc, [])
  end.

(** An integer literal: no leading zero, no fraction, no exponent. *)
Definition parse_int (l : list ascii) : option (Z * list ascii) :=
  let '(neg, l1) := match l with
                    | c :: l' => if Ascii.eqb c "-"%char then (true, l') else (false, l)
                    | [] => (false, l)
                    end in
  match l1 with
  | c :: l2 =>
      if negb (is_digit c) then None
      else
        let '(n, rest) := if Ascii.eqb c "0"%char then (0%Z, l2)
                          else parse_digits (digit_value c) l2 in
        match rest with
        | d :: _ => if is_digit d || Ascii.eqb d "."%char || Ascii.eqb d "e"%char
                       || Ascii.eqb d "E"%char then None
                    else Some (if neg then Z.opp n else n, rest)
        | [] => Some (if neg then Z.opp n else n, rest)
        end
  | [] => None
  end.

Fixpoint parse_value (fuel : nat) (l : list ascii) {struct fuel}
  : option (json * list ascii) :=
  match fuel with
  | O => None
  | S f =>
      match skip_ws l with
      | "{"%char :: r =>
          match skip_ws r with
          | "}"%char :: r' => Some (JObj [], r')
          | _ =>
              let fix members (g : nat) (o : list (string * json))
                    (l : list ascii) : option (json * list ascii) :=
                match g with
                | O => None
                | S g' =>
                    match skip_ws l with
                    | Ascii.Ascii false true false false false true false false :: l1 =>
                        match parse_chars l1 with
                        | Some (k, l2) =>
                            match skip_ws l2 with
                            | ":"%char :: l3 =>
                                match parse_value f l3 with
                                | Some (v, l4) =>
                                    match skip_ws l4 with
                                    | ","%char :: l5 => members g' (obj_set o k v) l5
                                    | "}"%char :: l5 => Some (JObj (obj_set o k v), l5)
                                    | _ => None
                                    end
                                | None => None
                                end
                            | _ => None
                            end
                        | None => None
                        end
                    | _ => None
                    end
                end in
              members f [] r
          end
      | "["%char :: r =>
          match skip_ws r with
          | "]"%char :: r' => Some (JArr [], r')
          | _ =>
              let fix elems (g : nat) (acc : list json)
                    (l : list ascii) : option (json * list ascii) :=
                match g with
                | O => None
                | S g' =>
                    match parse_value f l with
                    | Some (v, l1) =>
                        match skip_ws l1 with
                        | ","%char :: l2 => elems g' (acc ++ [v])%list l2
                        | "]"%char :: l2 => Some (JArr (acc ++ [v])%list, l2)
                        | _ => None
                        end
                    | None => None
                    end
                end in
              elems f [] r
          end
      | Ascii.Ascii false true false false false true false false :: r =>
          match parse_chars r with
          | Some (s, r') => Some (JStr s, r')
          | None => None
          end
      | "t"%char :: "r"%char :: "u"%char :: "e"%char :: r => Some (JBool true, r)
      | "f"%char :: "a"%char :: "l"%char :: "s"%char :: "e"%char :: r =>
          Some (JBool false, r)
      | "n"%char :: "u"%char :: "l"%char :: "l"%char :: r => Some (JNull, r)
      | l' =>
          match parse_int l' with
          | Some (n, r) => Some (JNum n, r)
          | None => None
          end
      end
  end.

(** [JSON.parse(s)]; [None] is the [SyntaxError]. *)
Definition json_parse (s : string) : option json :=
  let l := list_ascii_of_string s in
  match parse_value (S (List.length l)) l with
  | Some (v, rest) => match skip_ws rest with [] => Some v | _ => None end
  | None => None
  end.

Example json_parse_call :
  json_parse ("{" ++ quoted "name" ++ ":" ++ quoted "x" ++ "," ++ quoted "arguments" ++ ":{}}" ++ nl)
  = Some (JObj [("name", JStr "x"); ("arguments", JObj [])]).
Proof. vm_compute. reflexivity. Qed.

(* ================================================================== *)
(** ** [MCPStdioClient]

    The client keeps no table of requests: [sendMessage] creates a promise
    and installs its [resolve]/[reject] as the transport's single
    [onmessage] and [onerror] callbacks, replacing whatever was there.
    The state below records the promises in creation order, the request
    each one sent (same index), and the index whose callbacks the
    transport currently holds. *)

Record jsonrpc_request := {
  rq_id : Z;
  rq_method : string;
  rq_params : json
}.

(** An inbound message; [sendMessage]'s handler reads [error] or [result]
    and never looks at [rs_id]. *)
Inductive response_body :=
| BError (message : string)
| BResult (result : json).

Record response := {
  rs_id : Z;
  rs_body : response_body
}.

(** A JS promise settles once; later [resolve]/[reject] calls are no-ops. *)
Inductive promise_state :=
| Pending
| Resolved (v : json)
| Rejected (reason : string).

Record client := {
  cl_onmessage : option nat;     (* promise whose callbacks [onmessage] holds *)
  cl_onerror : option nat;       (* promise whose [reject] [onerror] holds *)
  cl_promises : list promise_state;
  cl_sent : list jsonrpc_request;
  cl_alive : bool                (* the child process has not been killed *)
}.

(** State right after the constructor: no callback installed yet. *)
Definition client_init : client :=
  {| cl_onmessage := None; cl_onerror := None; cl_promises := [];
     cl_sent := []; cl_alive := true |}.

Fixpoint settle (k : nat) (o : promise_state) (ps : list promise_state)
  {struct ps} : list promise_state :=
  match ps with
  | [] => []
  | p :: ps' =>
      match k with
      | O => (match p with Pending => o | _ => p end) :: ps'
      | S k' => p :: settle k' o ps'
      end
  end.

Inductive client_event :=
| Send (m : jsonrpc_request)          (* a call of [sendMessage(m)] *)
| SendFailed (k : nat) (e : string)   (* [transport.send] of request k rejects *)
| Inbound (r : response)              (* the transport delivers a message *)
| TransportError (e : string)         (* the transport calls [onerror] *)
| Stop.                               (* [stop()] *)

(** What [onmessage = (response) => ...] does with a message. *)
Definition outcome_of (r : response) : promise_state :=
  match rs_body r with
  | BError msg => Rejected ("MCP Error: " ++ msg)
  | BResult v => Resolved v
  end.

Definition set_promises (st : client) (ps : list promise_state) : client :=
  {| cl_onmessage := cl_onmessage st; cl_onerror := cl_onerror st;
     cl_promises := ps; cl_sent := cl_sent st; cl_alive := cl_alive st |}.

Definition client_step (st : client) (ev : client_event) : client :=
  match ev with
  | Send m =>
      let k := List.length (cl_promises st) in
      {| cl_onmessage := Some k; cl_onerror := Some k;
         cl_promises := cl_promises st ++ [Pending];
         cl_sent := cl_sent st ++ [m]; cl_alive := cl_alive st |}
  | SendFailed k e =>
      (* [.catch((error) => reject(error))] holds the reject of request k *)
      set_promises st (settle k (Rejected e) (cl_promises st))
  | Inbound r =>
      match cl_onmessage st with
      | Some k => set_promises st (settle k (outcome_of r) (cl_promises st))
      | None => st
      end
  | TransportError e =>
      match cl_onerror st with
      | Some k => set_promises st (settle k (Rejected e) (cl_promises st))
      | None => st
      end
  | Stop =>
      (* [this.process.kill("SIGTERM")]: nothing else *)
      {| cl_onmessage := cl_onmessage st; cl_onerror := cl_onerror st;
         cl_promises := cl_promises st; cl_sent := cl_sent st;
         cl_alive := false |}
  end.

Definition client_run (st : client) (evs : list client_event) : client :=
  fold_left client_step evs st.

(** [listTools()] *)
Definition listTools_msg : jsonrpc_request :=
  {| rq_id := 1; rq_method := "tools/list"; rq_params := JObj [] |}.

(** [callTool(name, args)] *)
Definition callTool_msg (name args : json) : jsonrpc_request :=
  {| rq_id := 2; rq_method := "tools/call";
     rq_params := JObj [("name", name); ("arguments", args)] |}.

(** Requests sent and not yet settled, by index. *)
Definition outstanding (st : client) : list nat :=
  filter (fun k => match nth_error (cl_promises st) k with
                   | Some Pending => true
                   | _ => false
                   end)
         (seq 0 (List.length (cl_promises st))).

(** Correlation ids of the outstanding requests. *)
Definition outstanding_ids (st : client) : list Z :=
  map (fun k => match nth_error (cl_sent st) k with
                | Some m => rq_id m
                | None => 0%Z
                end) (outstanding st).

(* ================================================================== *)
(** ** The streaming tool-call detector of [getStreamedResponse] *)

Record turn := {
  role : string;
  content : string
}.

Definition fence_open : string := "```json" ++ nl.
Definition fence : string := "```".

(** The extraction chain of the loop body:
    [fullContent.includes('```json') && fullContent.includes('```')],
    [parts = fullContent.split('```json\n')], [parts.length > 1],
    [jsonParts = parts[1].split('```')], [jsonParts.length > 1];
    the result is [jsonParts[0]]. *)
Definition fenced_json (fullContent : string) : option string :=
  if js_includes "```json" fullContent && js_includes fence fullContent then
    let parts := js_split fence_open fullContent in
    if Nat.ltb 1 (List.length parts) then
      let jsonParts := js_split fence (nth 1 parts EmptyString) in
      if Nat.ltb 1 (List.length jsonParts) then Some (nth 0 jsonParts EmptyString)
      else None
    else None
  else None.

(** What one check of the accumulated text decides. *)
Inductive detection :=
| DNone                        (* no complete block, or not a tool call *)
| DThrow                       (* exception caught by [catch]: logged *)
| DCall (name args : json).    (* [mcp.callTool(jsonContent.name, ...)] *)

(** Events of one model invocation, in order. *)
Inductive scan_event :=
| ECall (name args : json)     (* [console.log("\nTool Used: ...")] then [callTool] *)
| ELogError.                   (* [console.error("\nError parsing JSON:", ...)] *)

Inductive invocation_outcome :=
| Done (fullContent : string)  (* the loop ended: [return fullContent] *)
| ToolTurn (t : turn).         (* a tool turn was pushed; the model is re-invoked *)

(** [arr[0]] on a possibly [undefined] value. *)
Definition js_index0 (v : option json) : option (option json) :=
  match v with
  | None | Some JNull => None
  | Some (JArr l) => Some (nth_error l 0)
  | Some (JStr (String c _)) => Some (Some (JStr (String c EmptyString)))
  | Some (JObj fs) => Some (assoc_last "0" fs)
  | Some _ => Some None
  end.

(** [Array.prototype.join] prints [undefined] and [null] as "". *)
Definition join_elem (v : option json) : string :=
  match v with
  | None | Some JNull => EmptyString
  | Some v => js_to_string v
  end.

(** [result.content.map((c) => c.text)] *)
Fixpoint map_text (cs : list json) : option (list (option json)) :=
  match cs with
  | [] => Some []
  | c :: cs' =>
      match js_member (Some c) "text", map_text cs' with
      | Some t, Some ts => Some (t :: ts)
      | _, _ => None
      end
  end.

(** The history turn built from a tool result; [None] when building it
    throws (the exception is caught by the enclosing [catch]). *)
Definition tool_turn (name : json) (result : json) : option turn :=
  match js_member (Some result) "isError" with
  | None => None
  | Some isError =>
      if negb (js_truthy isError) then
        match js_member (Some result) "content" with
        | Some (Some (JArr cs)) =>
            match map_text cs with
            | Some texts =>
                let toolOutput := join nl (map join_elem texts) in
                Some {| role := "user";
                        content := "Tool " ++ js_to_string name ++ " output:"
                                   ++ nl ++ toolOutput |}
            | None => None
            end
        | _ => None
        end
      else
        match js_member (Some result) "content" with
        | Some c =>
            match js_index0 c with
            | Some c0 =>
                match js_member c0 "text" with
                | Some errorMsg =>
                    Some {| role := "user";
                            content := "Tool " ++ js_to_string name ++ " error: "
                                       ++ js_to_string_opt errorMsg |}
                | None => None
                end
            | None => None
            end
        | None => None
        end
  end.

Section Detector.

(** [JSON.parse]; [None] is a [SyntaxError]. *)
Variable parse : string -> option json.
(** The value [await mcp.callTool(name, args)] resolves to; [None] when
    the promise rejects. *)
Variable call_tool : json -> json -> option json.
(** The tokens [ollama.chat] streams for a given history. *)
Variable model : list turn -> list string.

Definition detect (fullContent : string) : detection :=
  match fenced_json fullContent with
  | None => DNone
  | Some j =>
      match parse j with
      | None => DThrow
      | Some jsonContent =>
          match js_member (Some jsonContent) "name",
                js_member (Some jsonContent) "arguments" with
          | Some (Some n), Some (Some a) =>
              if js_truthy (Some n) && js_truthy (Some a) then DCall n a else DNone
          | Some _, Some _ => DNone
          | _, _ => DThrow
          end
      end
  end.

(** The [for await] loop over the stream, [fullContent] being [acc].  A
    dispatch whose call rejects, or whose result cannot be turned into a
    turn, is caught like a parse error and the loop goes on. *)
Fixpoint scan (acc : string) (toks : list string)
  : list scan_event * invocation_outcome :=
  match toks with
  | [] => ([], Done acc)
  | t :: ts =>
      let acc' := acc ++ t in
      match detect acc' with
      | DNone => scan acc' ts
      | DThrow => let '(l, o) := scan acc' ts in (ELogError :: l, o)
      | DCall n a =>
          match call_tool n a with
          | Some result =>
              match tool_turn n result with
              | Some tr => ([ECall n a], ToolTurn tr)
              | None => let '(l, o) := scan acc' ts in (ECall n a :: ELogError :: l, o)
              end
          | None => let '(l, o) := scan acc' ts in (ECall n a :: ELogError :: l, o)
          end
      end
  end.

(** [getStreamedResponse()] with its recursion after each tool turn.  The
    code recurses without bound; [fuel] counts model invocations and
    [None] means it was exhausted. *)
Fixpoint rounds (fuel : nat) (history : list turn) (log : list scan_event)
  : option (list turn * string * list scan_event) :=
  match fuel with
  | O => None
  | S f =>
      let '(evs, o) := scan EmptyString (model history) in
      match o with
      | ToolTurn tr => rounds f (history ++ [tr])%list (log ++ evs)%list
      | Done fullContent => Some (history, fullContent, (log ++ evs)%list)
      end
  end.

(** [if (finalContent.trim()) chatHistory.push({role: "assistant", ...})] *)
Definition push_final (history : list turn) (finalContent : string) : list turn :=
  if negb (String.eqb (js_trim finalContent) EmptyString)
  then (history ++ [{| role := "assistant"; content := finalContent |}])%list
  else history.

(** The [rl.on("line", ...)] handler. *)
Definition on_line (fuel : nat) (history : list turn) (input : string)
  : option (list turn * list scan_event) :=
  match rounds fuel (history ++ [{| role := "user"; content := input |}])%list [] with
  | Some (h, finalContent, evs) => Some (push_final h finalContent, evs)
  | None => None
  end.

End Detector.

(** One token per character. *)
Fixpoint chars (s : string) : list string :=
  match s with
  | EmptyString => []
  | String c s' => String c EmptyString :: chars s'
  end.

Definition call_json : string :=
  "{" ++ quoted "name" ++ ":" ++ quoted "x" ++ "," ++ quoted "arguments" ++ ":{}}" ++ nl.
Definition call_block : string := fence_open ++ call_json ++ fence.

Definition ok_result : json :=
  JObj [("isError", JBool false); ("content", JArr [JObj [("text", JStr "ok")]])].

Example scan_call_block_chars :
  scan json_parse (fun _ _ => Some ok_result) EmptyString (chars call_block)
  = ([ECall (JStr "x") (JObj [])],
     ToolTurn {| role := "user"; content := "Tool x output:" ++ nl ++ "ok" |}).
Proof. vm_compute. reflexivity. Qed.

Example scan_call_block_then_json :
  scan json_parse (fun _ _ => Some ok_result) EmptyString [call_block ++ "json" ++ nl]
  = ([], Done (call_block ++ "json" ++ nl)).
Proof. vm_compute. reflexivity. Qed.

(* ================================================================== *)
(** ** [getOllamaCompatibleTools]

    The function first awaits [mcp.listTools()] (a [Send listTools_msg]
    on the client); what follows is the conversion of the resolved value
    [list]. *)

(** The per-parameter object literal [{type, description}]. *)
Record ollama_prop := {
  op_type : option json;          (* [prop.type] *)
  op_description : option json    (* [prop.description || undefined] *)
}.

Record ollama_tool := {
  ot_type : string;                                (* 'function' *)
  ot_name : option json;                           (* [tool.name] *)
  ot_description : option json;                    (* [tool.description] *)
  ot_parameters_type : string;                     (* 'object' *)
  ot_properties : list (string * ollama_prop);
  ot_required : json                               (* [required || []] *)
}.

(** [Object.entries(v)] for the values a parsed JSON document holds;
    objects produced by [JSON.parse] have distinct keys. *)
Definition js_entries (v : json) : list (string * json) :=
  match v with
  | JObj fs => fs
  | JArr l => combine (map (fun i => Z_to_string (Z.of_nat i)) (seq 0 (List.length l))) l
  | JStr s => combine (map (fun i => Z_to_string (Z.of_nat i)) (seq 0 (String.length s)))
                      (map (fun c => JStr (String c EmptyString)) (list_ascii_of_string s))
  | _ => []
  end.

(** The loop body [parameters.properties[key] = {...}]; [None] when
    [prop.type] throws. *)
Definition convert_prop (prop : json) : option ollama_prop :=
  match js_member (Some prop) "type", js_member (Some prop) "description" with
  | Some ty, Some d =>
      Some {| op_type := ty; op_description := if js_truthy d then d else None |}
  | _, _ => None
  end.

Fixpoint convert_props (props : list (string * ollama_prop))
  (entries : list (string * json)) : option (list (string * ollama_prop)) :=
  match entries with
  | [] => Some props
  | (key, prop) :: entries' =>
      match convert_prop prop with
      | Some p => convert_props (obj_set props key p) entries'
      | None => None
      end
  end.

(** The callback of [list.tools.map]. *)
Definition convert_tool (tool : json) : option ollama_tool :=
  match js_member (Some tool) "inputSchema" with
  | None => None
  | Some inputSchema =>
      match js_member inputSchema "required", js_member inputSchema "properties" with
      | Some req, Some props =>
          let required := if js_truthy req
                          then match req with Some r => r | None => JArr [] end
                          else JArr [] in
          let properties :=
            match props with
            | Some p => if js_truthy props then convert_props [] (js_entries p)
                        else Some []
            | None => Some []
            end in
          match properties, js_member (Some tool) "name",
                js_member (Some tool) "description" with
          | Some ps, Some name, Some description =>
              Some {| ot_type := "function"; ot_name := name;
                      ot_description := description; ot_parameters_type := "object";
                      ot_properties := ps; ot_required := required |}
          | _, _, _ => None
          end
      | _, _ => None
      end
  end.



Example convert_spec_tool :
  convert_tool
    (JObj [("name", JStr "t"); ("description", JStr "T");
           ("inputSchema",
            JObj [("type", JStr "object");
                  ("properties",
                   JObj [("a", JObj [("type", JStr "string"); ("description", JStr "d")]);
                         ("b", JObj [("type", JStr "number");
                                     ("enum", JArr [JNum 1])])]);
                  ("required", JArr [JStr "a"])])])
  = Some {| ot_type := "function"; ot_name := Some (JStr "t");
            ot_description := Some (JStr "T"); ot_parameters_type := "object";
            ot_properties :=
              [("a", {| op_type := Some (JStr "string"); op_description := Some (JStr "d") |});
               ("b", {| op_type := Some (JStr "number"); op_description := None |})];
            ot_required := JArr [JStr "a"] |}.
Proof. reflexivity. Qed.


(** The parameters of the spec's adapter example. *)
Definition spec_props : list (string * json) :=
  [("a", JObj [("type", JStr "string"); ("description", JStr "d")]);
   ("b", JObj [("type", JStr "number"); ("enum", JArr [JNum 1])])].

Definition spec_schema : list (string * json) :=
  [("type", JStr "object"); ("properties", JObj spec_props);
   ("required", JArr [JStr "a"])].

Definition spec_tool : list (string * json) :=
  [("name", JStr "t"); ("description", JStr "T"); ("inputSchema", JObj spec_schema)].

(** A parameter whose description is the empty string. *)
Definition empty_desc_tool : json :=
  JObj [("name", JStr "t");
        ("inputSchema",
         JObj [("properties",
                JObj [("p", JObj [("type", JStr "string"); ("description", JStr "")])])])].

(** One converted parameter against its declaration: same key, [type]
    copied, [description] copied when truthy and [undefined] otherwise. *)
Definition prop_copied (kp : string * json) (kop : string * ollama_prop) : Prop :=
  fst kp = fst kop /\
  exists qs, snd kp = JObj qs /\
    op_type (snd kop) = assoc_last "type" qs /\
    op_description (snd kop) =
      if js_truthy (assoc_last "description" qs)
      then assoc_last "description" qs else None.

(** The text a token stream accumulates to. *)
Fixpoint stream_text (toks : list string) : string :=
  match toks with
  | [] => EmptyString
  | t :: ts => t ++ stream_text ts
  end.

(** A parsed value the detector treats as a tool call:
    [jsonContent.name && jsonContent.arguments] is truthy. *)
Definition is_tool_call (v : json) : bool :=
  match js_member (Some v) "name", js_member (Some v) "arguments" with
  | Some n, Some a => js_truthy n && js_truthy a
  | _, _ => false
  end.

(** The text contains a fenced "```json\n" ... "```" block whose content
    parses as a tool call. *)
Definition contains_tool_block (parse : string -> option json) (t : string) : Prop :=
  exists pre j post v,
    t = pre ++ fence_open ++ j ++ fence ++ post /\
    parse j = Some v /\ is_tool_call v = true.

(** A fenced block whose content is not JSON. *)
Definition bad_json : string := "{bad}" ++ nl.
Definition bad_block : string := fence_open ++ bad_json ++ fence ++ nl.

(** A fenced block with both fields present, [name] being "". *)
Definition empty_name_json : string :=
  "{" ++ quoted "name" ++ ":" ++ quoted "" ++ "," ++ quoted "arguments" ++ ":{}}" ++ nl.
Definition empty_name_block : string := fence_open ++ empty_name_json ++ fence.

(** The block of the round-trip example: [callTool("x", {a:1})]. *)
Definition call_x_block : string :=
  fence_open ++ "{" ++ quoted "name" ++ ":" ++ quoted "x" ++ "," ++ quoted "arguments" ++ ":{" ++ quoted "a" ++ ":1}}" ++ nl ++ fence.

Definition args_a1 : json := JObj [("a", JNum 1)].

(** Requests made one at a time: each [sendMessage] is answered before
    the next one is sent. *)
Definition one_at_a_time (rs : list (jsonrpc_request * response)) : list client_event :=
  flat_map (fun mr => [Send (fst mr); Inbound (snd mr)]) rs.

(** A turn reporting a tool's output or error: a user turn whose text
    starts with "Tool ". *)
Definition is_tool_report (t : turn) : Prop :=
  role t = "user" /\ exists rest, content t = "Tool " ++ rest.

(** A model that asks for [x] at the first invocation of a line and
    answers "done" after the tool turn. *)
Definition line_model (h : list turn) : list string :=
  if Nat.eqb (List.length h) 1 then [call_x_block] else ["done"].

(* ================================================================== *)
(** * Properties *)

(** ** Client lemmas *)

Lemma settle_other : forall ps k j o,
  j <> k -> nth_error (settle k o ps) j = nth_error ps j.
Proof.
  induction ps as [|p ps IH]; intros k j o Hjk; simpl; [reflexivity|].
  destruct k as [|k'], j as [|j']; simpl; try reflexivity.
  - congruence.
  - apply IH. congruence.
Qed.

Lemma settle_last : forall ps o,
  settle (List.length ps) o (ps ++ [Pending])%list = (ps ++ [o])%list.
Proof.
  induction ps as [|p ps IH]; intros o; simpl; [reflexivity|].
  rewrite IH. reflexivity.
Qed.

Lemma settle_at : forall ps k o,
  nth_error ps k = Some Pending -> nth_error (settle k o ps) k = Some o.
Proof.
  induction ps as [|p ps IH]; intros k o H; [destruct k; discriminate|].
  destruct k as [|k']; simpl in *.
  - inversion H. reflexivity.
  - apply IH. assumption.
Qed.

Lemma settle_not_pending : forall ps k o,
  o <> Pending -> nth_error (settle k o ps) k <> Some Pending.
Proof.
  induction ps as [|p ps IH]; intros k o Ho; [destruct k; discriminate|].
  destruct k as [|k']; simpl.
  - destruct p; congruence.
  - apply IH. assumption.
Qed.

Lemma in_outstanding : forall st k,
  In k (outstanding st) <-> nth_error (cl_promises st) k = Some Pending.
Proof.
  intros st k. unfold outstanding. rewrite filter_In, in_seq.
  split.
  - intros [_ H]. destruct (nth_error (cl_promises st) k) as [[]|]; congruence.
  - intros H. split.
    + split; [lia|]. apply nth_error_Some. congruence.
    + rewrite H. reflexivity.
Qed.

(** ** C1 *)

(** C1 (code bug).  [sendMessage] installs its own callbacks as the
    transport's only [onmessage], so an inbound message settles the most
    recently sent request and leaves every other request as it is,
    whatever the message's id; a request sent on its own resolves with
    the next inbound response. *)
Theorem sendMessage_settles_latest :
  (forall st r j, cl_onmessage st <> Some j ->
     nth_error (cl_promises (client_step st (Inbound r))) j
     = nth_error (cl_promises st) j) /\
  (forall st m r,
     cl_promises (client_run st [Send m; Inbound r])
     = (cl_promises st ++ [outcome_of r])%list).
Proof.
  split.
  - intros st r j Hj. simpl.
    destruct (cl_onmessage st) as [k|] eqn:E; simpl; [|reflexivity].
    apply settle_other. congruence.
  - intros st m r. simpl. apply settle_last.
Qed.

(** C1 counterexample: [listTools] (id 1) and [callTool] (id 2) in
    flight together; the id-1 response arrives first.  It resolves the
    [callTool] request, and the [listTools] request never settles. *)
Lemma sendMessage_concurrent_mismatch :
  cl_promises
    (client_run client_init
       [Send listTools_msg; Send (callTool_msg (JStr "x") (JObj []));
        Inbound {| rs_id := 1; rs_body := BResult (JStr "tools") |};
        Inbound {| rs_id := 2; rs_body := BResult (JStr "call") |}])
  = [Pending; Resolved (JStr "tools")].
Proof. reflexivity. Qed.

(** ** C2 *)

(** C2 (code bug).  The correlation ids are constants: [listTools]
    always sends id 1 and [callTool] always sends id 2.  A request leaves
    the outstanding set once it is settled. *)
Theorem request_ids_fixed :
  rq_id listTools_msg = 1%Z /\
  (forall name args, rq_id (callTool_msg name args) = 2%Z) /\
  (forall st r k, cl_onmessage st = Some k ->
     ~ In k (outstanding (client_step st (Inbound r)))).
Proof.
  split; [reflexivity|]. split; [reflexivity|].
  intros st r k Hk Hin. apply in_outstanding in Hin.
  simpl in Hin. rewrite Hk in Hin. simpl in Hin.
  revert Hin. apply settle_not_pending.
  unfold outcome_of. destruct (rs_body r); discriminate.
Qed.

(** C2 counterexample: two [callTool] requests outstanding together
    carry the same id. *)
Lemma callTool_ids_collide :
  outstanding_ids
    (client_run client_init
       [Send (callTool_msg (JStr "a") (JObj []));
        Send (callTool_msg (JStr "b") (JObj []))])
  = [2%Z; 2%Z].
Proof. reflexivity. Qed.

(** ** C3 *)

(** C3 (code bug).  [stop()] only kills the child process: it settles
    no request.  A transport error rejects only the request whose
    callbacks [onerror] holds (the latest one) and leaves the others as
    they are. *)
Theorem stop_settles_nothing :
  (forall st, cl_promises (client_step st Stop) = cl_promises st) /\
  (forall st e j, cl_onerror st <> Some j ->
     nth_error (cl_promises (client_step st (TransportError e))) j
     = nth_error (cl_promises st) j).
Proof.
  split; [reflexivity|].
  intros st e j Hj. simpl.
  destruct (cl_onerror st) as [k|] eqn:E; simpl; [|reflexivity].
  apply settle_other. congruence.
Qed.

(** C3 counterexample: two requests outstanding, [stop()], and even a
    transport error afterwards: the first request stays pending. *)
Lemma stop_leaves_pending :
  cl_promises
    (client_run client_init
       [Send listTools_msg; Send (callTool_msg (JStr "x") (JObj [])); Stop;
        TransportError "stream closed"])
  = [Pending; Rejected "stream closed"].
Proof. reflexivity. Qed.

(** ** String lemmas *)

Lemma sapp_assoc : forall x y z : string, (x ++ y) ++ z = x ++ (y ++ z).
Proof. induction x; intros; simpl; [reflexivity|]. rewrite IHx. reflexivity. Qed.

Lemma sapp_nil_r : forall x : string, x ++ EmptyString = x.
Proof. induction x; simpl; [reflexivity|]. rewrite IHx. reflexivity. Qed.

Lemma slength_app : forall x y : string,
  String.length (x ++ y) = String.length x + String.length y.
Proof. induction x; intros; simpl; [reflexivity|]. rewrite IHx. reflexivity. Qed.

Lemma prefix_self_app : forall p y, String.prefix p (p ++ y) = true.
Proof.
  induction p as [|c p IH]; intros y; [destruct y; reflexivity|].
  simpl. destruct (ascii_dec c c); [apply IH | congruence].
Qed.

Lemma prefix_app_long : forall p s y,
  String.length p <= String.length s ->
  String.prefix p (s ++ y) = String.prefix p s.
Proof.
  induction p as [|c p IH]; intros s y H.
  { destruct s, y; reflexivity. }
  destruct s as [|d s]; simpl in H; [lia|].
  simpl. destruct (ascii_dec c d); [apply IH; lia | reflexivity].
Qed.

Lemma prefix_split : forall p s,
  String.prefix p s = true -> s = p ++ drop (String.length p) s.
Proof.
  induction p as [|c p IH]; intros s H; simpl; [reflexivity|].
  destruct s as [|d s]; simpl in H; [discriminate|].
  destruct (ascii_dec c d); [|discriminate]. subst d. simpl.
  f_equal. apply IH. assumption.
Qed.

Lemma find_sep_eq : forall sep s,
  find_sep sep s =
  if String.prefix sep s then Some (EmptyString, drop (String.length sep) s)
  else match s with
       | EmptyString => None
       | String c s' =>
           match find_sep sep s' with
           | Some (b, a) => Some (String c b, a)
           | None => None
           end
       end.
Proof. intros sep s. destruct s; reflexivity. Qed.

Lemma find_sep_spec : forall sep s b a,
  find_sep sep s = Some (b, a) -> s = b ++ sep ++ a.
Proof.
  intros sep s. induction s as [|c s IH]; intros b a H; rewrite find_sep_eq in H.
  - destruct (String.prefix sep "") eqn:E; [|discriminate].
    inversion H; subst. simpl. apply prefix_split. assumption.
  - destruct (String.prefix sep (String c s)) eqn:E.
    + inversion H; subst. simpl. apply prefix_split. assumption.
    + destruct (find_sep sep s) as [[b' a']|] eqn:F; [|discriminate].
      inversion H; subst. simpl. f_equal. apply IH. reflexivity.
Qed.

Lemma drop_app : forall n u v,
  n <= String.length u -> drop n (u ++ v) = drop n u ++ v.
Proof.
  induction n; intros u v Hn; simpl; [reflexivity|].
  destruct u; simpl in Hn; [lia|]. apply IHn. lia.
Qed.

(** The first occurrence of [sep] in [x] is also the first one in
    [x ++ y]. *)
Lemma find_sep_app : forall sep x y b a,
  find_sep sep x = Some (b, a) -> find_sep sep (x ++ y) = Some (b, a ++ y).
Proof.
  intros sep x y b a H.
  pose proof (find_sep_spec _ _ _ _ H) as Hs.
  revert b a H Hs. induction x as [|c x IH]; intros b a H Hs.
  - rewrite find_sep_eq in H.
    destruct (String.prefix sep "") eqn:E; [|discriminate].
    inversion H; subst. destruct sep; [|discriminate].
    destruct y; reflexivity.
  - assert (Hl : String.length sep <= String.length (String c x)).
    { rewrite Hs. rewrite !slength_app. lia. }
    rewrite find_sep_eq in H |- *. simpl (String c x ++ y).
    change (String c (x ++ y)) with (String c x ++ y).
    rewrite (prefix_app_long sep (String c x) y Hl).
    destruct (String.prefix sep (String c x)) eqn:E.
    + inversion H; subst. rewrite drop_app by exact Hl. reflexivity.
    + destruct (find_sep sep x) as [[b' a']|] eqn:F; [|discriminate].
      injection H as <- <-.
      change (String c x ++ y) with (String c (x ++ y)). cbv iota beta.
      rewrite (IH b' a' eq_refl (find_sep_spec _ _ _ _ F)). reflexivity.
Qed.

(** An occurrence found in [x ++ y] that ends inside [x] is found in [x]. *)
Lemma find_sep_shrink : forall sep x y b a,
  find_sep sep (x ++ y) = Some (b, a) ->
  String.length b + String.length sep <= String.length x ->
  exists a', find_sep sep x = Some (b, a').
Proof.
  intros sep x. induction x as [|c x IH]; intros y b a H Hl.
  - simpl in Hl. destruct sep; simpl in Hl; [|lia].
    destruct b; simpl in Hl; [|lia]. exists EmptyString. reflexivity.
  - rewrite find_sep_eq in H |- *.
    change (String c x ++ y) with (String c (x ++ y)) in H.
    destruct (String.prefix sep (String c x)) eqn:E.
    + rewrite <- (prefix_app_long sep (String c x) y) in E.
      * change (String c x ++ y) with (String c (x ++ y)) in E.
        rewrite E in H. inversion H; subst. eauto.
      * simpl in *. destruct b; simpl in Hl; lia.
    + destruct b as [|d b].
      * rewrite <- (prefix_app_long sep (String c x) y) in E by (simpl in *; lia).
        change (String c x ++ y) with (String c (x ++ y)) in E.
        rewrite E in H.
        destruct (find_sep sep (x ++ y)) as [[b2 a2]|]; discriminate.
      * rewrite <- (prefix_app_long sep (String c x) y) in E by (simpl in *; lia).
        change (String c x ++ y) with (String c (x ++ y)) in E.
        rewrite E in H.
        destruct (find_sep sep (x ++ y)) as [[b2 a2]|] eqn:F2; [|discriminate].
        injection H as <- <-.
        destruct (IH y b2 a2 F2) as [a' Ha']; [simpl in Hl; lia|].
        rewrite Ha'. eauto.
Qed.

Lemma find_sep_shorter : forall sep s b a,
  sep <> EmptyString -> find_sep sep s = Some (b, a) ->
  String.length a < String.length s.
Proof.
  intros sep s b a Hne H. apply find_sep_spec in H. subst s.
  rewrite !slength_app. destruct sep; [congruence|]. simpl. lia.
Qed.

Lemma split_fuel_enough : forall sep f1 f2 s,
  sep <> EmptyString ->
  String.length s < f1 -> String.length s < f2 ->
  split_fuel f1 sep s = split_fuel f2 sep s.
Proof.
  intros sep f1. induction f1 as [|f1 IH]; intros f2 s Hne H1 H2; [lia|].
  destruct f2 as [|f2]; [lia|]. simpl.
  destruct (find_sep sep s) as [[b a]|] eqn:F; [|reflexivity].
  f_equal. pose proof (find_sep_shorter _ _ _ _ Hne F). apply IH; [exact Hne | lia | lia].
Qed.

Lemma js_split_unfold : forall sep s,
  sep <> EmptyString ->
  js_split sep s = match find_sep sep s with
                   | None => [s]
                   | Some (b, a) => b :: js_split sep a
                   end.
Proof.
  intros sep s Hne. unfold js_split at 1. simpl.
  destruct (find_sep sep s) as [[b a]|] eqn:F; [|reflexivity].
  f_equal. unfold js_split. pose proof (find_sep_shorter _ _ _ _ Hne F).
  apply split_fuel_enough; auto; lia.
Qed.

Lemma js_includes_eq : forall p s,
  js_includes p s =
  String.prefix p s || match s with
                       | EmptyString => false
                       | String _ s' => js_includes p s'
                       end.
Proof. intros p s. destruct s; reflexivity. Qed.

Lemma js_includes_app : forall p x y,
  js_includes p (x ++ p ++ y) = true.
Proof.
  intros p x y. induction x as [|c x IH]; simpl.
  - rewrite js_includes_eq. simpl (EmptyString ++ p ++ y).
    rewrite prefix_self_app. reflexivity.
  - rewrite IH. apply orb_true_r.
Qed.

Lemma sapp_split_long : forall p q x y : string,
  p ++ q = x ++ y -> String.length x <= String.length p ->
  exists w, p = x ++ w /\ y = w ++ q.
Proof.
  induction p as [|c p IH]; intros q x y H Hl.
  - destruct x; simpl in Hl; [|lia]. exists EmptyString. simpl in *. auto.
  - destruct x as [|d x].
    + exists (String c p). simpl in *. auto.
    + simpl in H. inversion H; subst. simpl in Hl.
      destruct (IH q x y H2) as [w [Hw1 Hw2]]; [lia|].
      exists w. subst. auto.
Qed.

Lemma js_split_head : forall sep s,
  sep <> EmptyString ->
  exists rest z, js_split sep s = rest /\ rest <> [] /\ s = nth 0 rest EmptyString ++ z.
Proof.
  intros sep s Hne. rewrite js_split_unfold by exact Hne.
  destruct (find_sep sep s) as [[b a]|] eqn:F.
  - exists (b :: js_split sep a), (sep ++ a). repeat split; [discriminate|].
    apply find_sep_spec. exact F.
  - exists [s], EmptyString. repeat split; [discriminate|]. simpl.
    symmetry. apply sapp_nil_r.
Qed.

Lemma fence_open_ne : fence_open <> EmptyString.
Proof. discriminate. Qed.

Lemma fence_ne : fence <> EmptyString.
Proof. discriminate. Qed.

(** What a successful extraction tells about the accumulated text. *)
Lemma fenced_json_some : forall p j,
  fenced_json p = Some j ->
  exists b a k, find_sep fence_open p = Some (b, a) /\
    find_sep fence (nth 0 (js_split fence_open a) EmptyString) = Some (j, k).
Proof.
  intros p j H. unfold fenced_json in H.
  destruct (_ && _); [|discriminate].
  rewrite (js_split_unfold fence_open p fence_open_ne) in H.
  destruct (find_sep fence_open p) as [[b a]|] eqn:F; [|discriminate].
  simpl nth in H.
  destruct (Nat.ltb 1 _); [|discriminate].
  rewrite (js_split_unfold fence _ fence_ne) in H.
  destruct (find_sep fence (nth 0 (js_split fence_open a) EmptyString))
    as [[j' k]|] eqn:G.
  - destruct (Nat.ltb 1 _); [|discriminate]. simpl in H. injection H as <-. eauto.
  - simpl in H. discriminate.
Qed.

Section Block.

Variables pre J post : string.
(** The block's opener is the first "```json\n" of the text. *)
Hypothesis Hopen : find_sep fence_open (pre ++ fence_open) = Some (pre, EmptyString).
(** Its closing fence is the first "```" after the opener. *)
Hypothesis Hclose : find_sep fence (J ++ fence) = Some (J, EmptyString).
(** No further "```json\n" starts before the closing fence ends. *)
Hypothesis Hnext : forall b a,
  find_sep fence_open (J ++ fence ++ post) = Some (b, a) ->
  String.length (J ++ fence) <= String.length b.

Lemma block_find_open : forall r,
  find_sep fence_open (pre ++ fence_open ++ r) = Some (pre, r).
Proof.
  intros r. pose proof (find_sep_app _ _ r _ _ Hopen) as H.
  rewrite sapp_assoc in H. exact H.
Qed.

Lemma block_find_close : forall r,
  find_sep fence (J ++ fence ++ r) = Some (J, r).
Proof.
  intros r. pose proof (find_sep_app _ _ r _ _ Hclose) as H.
  rewrite sapp_assoc in H. exact H.
Qed.

Lemma fenced_json_before : forall p q,
  p ++ q = pre ++ fence_open ++ J ++ fence ++ post ->
  String.length p < String.length (pre ++ fence_open ++ J ++ fence) ->
  fenced_json p = None.
Proof.
  intros p q Hpq Hlen.
  destruct (fenced_json p) as [j|] eqn:E; [|reflexivity].
  exfalso.
  destruct (fenced_json_some _ _ E) as [b1 [a1 [k [F1 G1]]]].
  pose proof (find_sep_app _ _ q _ _ F1) as F1q. rewrite Hpq in F1q.
  rewrite block_find_open in F1q.
  assert (b1 = pre /\ a1 ++ q = J ++ fence ++ post) as [<- Ha1]
    by (injection F1q; auto).
  pose proof (find_sep_spec _ _ _ _ F1) as Hp.
  destruct (js_split_head fence_open a1 fence_open_ne) as [rest [z [Hr [_ Hz]]]].
  rewrite Hr in G1.
  pose proof (find_sep_app _ _ (z ++ q) _ _ G1) as G2.
  rewrite <- sapp_assoc, <- Hz, Ha1, block_find_close in G2.
  injection G2 as <- Hk.
  pose proof (find_sep_spec _ _ _ _ G1) as Hs.
  assert (String.length (nth 0 rest EmptyString) <= String.length a1)
    by (rewrite Hz at 1; rewrite slength_app; lia).
  rewrite Hs in H. subst p. rewrite !slength_app in Hlen. rewrite !slength_app in H. lia.
Qed.

Lemma fenced_json_after : forall p q,
  p ++ q = pre ++ fence_open ++ J ++ fence ++ post ->
  String.length (pre ++ fence_open ++ J ++ fence) <= String.length p ->
  fenced_json p = Some J.
Proof.
  intros p q Hpq Hlen.
  assert (Ht : pre ++ fence_open ++ J ++ fence ++ post
               = (pre ++ fence_open ++ J ++ fence) ++ post)
    by (rewrite !sapp_assoc; reflexivity).
  rewrite Ht in Hpq.
  destruct (sapp_split_long _ _ _ _ Hpq Hlen) as [w [Hp Hpost]].
  subst p. rewrite !sapp_assoc.
  unfold fenced_json.
  replace (js_includes "```json" (pre ++ fence_open ++ J ++ fence ++ w)) with true
    by (symmetry; apply (js_includes_app "```json" pre (nl ++ J ++ fence ++ w))).
  replace (js_includes fence (pre ++ fence_open ++ J ++ fence ++ w)) with true
    by (symmetry; apply (js_includes_app fence pre ("json" ++ nl ++ J ++ fence ++ w))).
  simpl andb. cbv beta iota.
  rewrite (js_split_unfold fence_open _ fence_open_ne), block_find_open.
  assert (Hs1 : exists w', nth 0 (js_split fence_open (J ++ fence ++ w)) EmptyString
                           = J ++ fence ++ w').
  { rewrite (js_split_unfold fence_open _ fence_open_ne).
    destruct (find_sep fence_open (J ++ fence ++ w)) as [[b a]|] eqn:F.
    - simpl. pose proof (find_sep_app _ _ q _ _ F) as Fq.
      rewrite !sapp_assoc, <- Hpost in Fq.
      apply Hnext in Fq.
      apply find_sep_spec in F.
      rewrite <- sapp_assoc in F.
      symmetry in F.
      destruct (sapp_split_long _ _ _ _ F Fq) as [w' [Hb _]].
      exists w'. rewrite Hb, sapp_assoc. reflexivity.
    - exists w. reflexivity. }
  destruct Hs1 as [w' Hs1].
  destruct (js_split fence_open (J ++ fence ++ w)) as [|s1 r1] eqn:Hsp.
  - exfalso. rewrite js_split_unfold in Hsp by exact fence_open_ne.
    destruct (find_sep fence_open (J ++ fence ++ w)) as [[? ?]|]; discriminate.
  - replace (Nat.ltb 1 (List.length (pre :: s1 :: r1))) with true by reflexivity.
    change (nth 1 (pre :: s1 :: r1) EmptyString) with s1.
    change (nth 0 (s1 :: r1) EmptyString) with s1 in Hs1. rewrite Hs1.
    rewrite (js_split_unfold fence _ fence_ne), block_find_close.
    destruct (js_split fence w') as [|x r] eqn:Hw.
    + exfalso. rewrite js_split_unfold in Hw by exact fence_ne.
      destruct (find_sep fence w') as [[? ?]|]; discriminate.
    + reflexivity.
Qed.

End Block.

(** ** Detector lemmas *)

Section DetectorProofs.

Variable parse : string -> option json.
Variable call_tool : json -> json -> option json.
Variable model : list turn -> list string.

Lemma scan_cons : forall acc t ts,
  scan parse call_tool acc (t :: ts) =
  match detect parse (acc ++ t) with
  | DNone => scan parse call_tool (acc ++ t) ts
  | DThrow => let '(l, o) := scan parse call_tool (acc ++ t) ts in (ELogError :: l, o)
  | DCall n a =>
      match call_tool n a with
      | Some result =>
          match tool_turn n result with
          | Some tr => ([ECall n a], ToolTurn tr)
          | None => let '(l, o) := scan parse call_tool (acc ++ t) ts in
                    (ECall n a :: ELogError :: l, o)
          end
      | None => let '(l, o) := scan parse call_tool (acc ++ t) ts in
                (ECall n a :: ELogError :: l, o)
      end
  end.
Proof. reflexivity. Qed.

Lemma detect_call_inv : forall p n a,
  detect parse p = DCall n a ->
  exists j v, fenced_json p = Some j /\ parse j = Some v /\ is_tool_call v = true.
Proof.
  intros p n a H. unfold detect in H.
  destruct (fenced_json p) as [j|] eqn:F; [|discriminate].
  destruct (parse j) as [v|] eqn:Pj; [|discriminate].
  exists j, v. split; [reflexivity|]. split; [exact Pj|].
  unfold is_tool_call.
  destruct (js_member (Some v) "name") as [[nm|]|];
    destruct (js_member (Some v) "arguments") as [[ar|]|]; try discriminate.
  destruct (js_truthy (Some nm) && js_truthy (Some ar)); [reflexivity|discriminate].
Qed.

(** A dispatch at [p] means [p], and every extension of it, contains a
    fenced tool-call block. *)
Lemma detect_call_contains : forall p q n a,
  detect parse p = DCall n a -> contains_tool_block parse (p ++ q).
Proof.
  intros p q n a H.
  destruct (detect_call_inv _ _ _ H) as [j [v [F [Pj Tv]]]].
  destruct (fenced_json_some _ _ F) as [b [a1 [k [F1 G1]]]].
  destruct (js_split_head fence_open a1 fence_open_ne) as [rest [z [Hr [_ Hz]]]].
  rewrite Hr in G1.
  apply find_sep_spec in F1. apply find_sep_spec in G1.
  exists b, j, (k ++ z ++ q), v. repeat split; auto.
  rewrite F1, Hz, G1. rewrite !sapp_assoc. reflexivity.
Qed.

Lemma scan_without_block : forall toks acc,
  ~ contains_tool_block parse (acc ++ stream_text toks) ->
  exists evs, scan parse call_tool acc toks = (evs, Done (acc ++ stream_text toks))
              /\ Forall (fun e => e = ELogError) evs.
Proof.
  induction toks as [|t ts IH]; intros acc Hno.
  - exists []. simpl. rewrite sapp_nil_r. split; [reflexivity | constructor].
  - rewrite scan_cons.
    assert (Hacc : acc ++ stream_text (t :: ts) = (acc ++ t) ++ stream_text ts)
      by (simpl; rewrite sapp_assoc; reflexivity).
    rewrite Hacc in Hno |- *.
    destruct (detect parse (acc ++ t)) as [| |n a] eqn:D.
    + apply IH. exact Hno.
    + destruct (IH (acc ++ t) Hno) as [evs [Hs Hf]]. rewrite Hs.
      exists (ELogError :: evs). split; [reflexivity | constructor; auto].
    + exfalso. apply Hno. eapply detect_call_contains. exact D.
Qed.

Lemma js_trim_blank : forall s,
  forallb js_ws (list_ascii_of_string s) = true -> js_trim s = EmptyString.
Proof.
  intros s H. unfold js_trim.
  assert (Ht : trim_start s = EmptyString).
  { induction s as [|c s IH]; [reflexivity|].
    simpl in H |- *. apply andb_true_iff in H as [Hc Hs]. rewrite Hc. auto. }
  rewrite Ht. reflexivity.
Qed.

End DetectorProofs.

(** ** The detector and the chat loop *)

Section DetectorLoop.

Variable parse : string -> option json.
Variable call_tool : json -> json -> option json.
Variable model : list turn -> list string.

(** Detection of a succeeding call.  Let the text be [pre ++ "```json\n" ++ J ++ "```" ++
    post], where the block's opener is the first "```json\n" of the text,
    its closing fence is the first "```" after the opener, and no further
    "```json\n" starts before that fence ends.  If [J] parses as a tool
    call and the call resolves to a result that becomes a turn, then for
    every partition of the text into tokens the invocation dispatches
    exactly once, with the same payload. *)
Theorem detection_boundary_insensitive :
  forall pre J post v n a result tr toks,
  find_sep fence_open (pre ++ fence_open) = Some (pre, EmptyString) ->
  find_sep fence (J ++ fence) = Some (J, EmptyString) ->
  (forall b a', find_sep fence_open (J ++ fence ++ post) = Some (b, a') ->
                String.length (J ++ fence) <= String.length b) ->
  parse J = Some v ->
  js_member (Some v) "name" = Some (Some n) ->
  js_member (Some v) "arguments" = Some (Some a) ->
  js_truthy (Some n) && js_truthy (Some a) = true ->
  call_tool n a = Some result ->
  tool_turn n result = Some tr ->
  stream_text toks = pre ++ fence_open ++ J ++ fence ++ post ->
  scan parse call_tool EmptyString toks = ([ECall n a], ToolTurn tr).
Proof.
  intros pre J post v n a result tr toks Hopen Hclose Hnext Pj Hn Ha Ht Hc Htr Htoks.
  set (L := String.length (pre ++ fence_open ++ J ++ fence)).
  assert (Hgen : forall toks acc,
            acc ++ stream_text toks = pre ++ fence_open ++ J ++ fence ++ post ->
            String.length acc < L ->
            scan parse call_tool acc toks = ([ECall n a], ToolTurn tr)).
  { induction toks0 as [|t ts IH]; intros acc Hacc Hlt.
    - exfalso. change (stream_text []) with EmptyString in Hacc.
      rewrite sapp_nil_r in Hacc. subst acc.
      unfold L in Hlt. rewrite !slength_app in Hlt. lia.
    - rewrite scan_cons.
      assert (Hsplit : (acc ++ t) ++ stream_text ts
                       = pre ++ fence_open ++ J ++ fence ++ post)
        by (rewrite sapp_assoc; exact Hacc).
      destruct (Nat.lt_ge_cases (String.length (acc ++ t)) L) as [Hl|Hl].
      + assert (D : detect parse (acc ++ t) = DNone).
        { unfold detect.
          assert (F : fenced_json (acc ++ t) = None)
            by (eapply fenced_json_before; eassumption).
          rewrite F. reflexivity. }
        rewrite D. apply IH; assumption.
      + assert (D : detect parse (acc ++ t) = DCall n a).
        { unfold detect.
          assert (F : fenced_json (acc ++ t) = Some J)
            by (eapply fenced_json_after; eassumption).
          rewrite F, Pj, Hn, Ha, Ht. reflexivity. }
        rewrite D, Hc, Htr. reflexivity. }
  apply Hgen.
  - exact Htoks.
  - unfold L. rewrite !slength_app. simpl. lia.
Qed.

(** C6 (corrected).  When the fenced content parses as a JSON object, the
    detector dispatches with [name] and [arguments] exactly when both are
    present and truthy (not "", 0, false or null); otherwise no tool is
    called and scanning goes on with the next token. *)
Theorem detect_requires_truthy_fields :
  forall acc t ts j fs,
  fenced_json (acc ++ t) = Some j ->
  parse j = Some (JObj fs) ->
  match assoc_last "name" fs, assoc_last "arguments" fs with
  | Some n, Some a =>
      if js_truthy (Some n) && js_truthy (Some a)
      then detect parse (acc ++ t) = DCall n a
      else scan parse call_tool acc (t :: ts) = scan parse call_tool (acc ++ t) ts
  | _, _ => scan parse call_tool acc (t :: ts) = scan parse call_tool (acc ++ t) ts
  end.
Proof.
  intros acc t ts j fs F Pj.
  assert (D : detect parse (acc ++ t) =
              match assoc_last "name" fs, assoc_last "arguments" fs with
              | Some n, Some a =>
                  if js_truthy (Some n) && js_truthy (Some a) then DCall n a else DNone
              | _, _ => DNone
              end).
  { unfold detect. rewrite F, Pj. simpl js_member.
    destruct (assoc_last "name" fs), (assoc_last "arguments" fs); reflexivity. }
  rewrite scan_cons.
  destruct (assoc_last "name" fs) as [n|], (assoc_last "arguments" fs) as [a|];
    rewrite D; try reflexivity.
  destruct (js_truthy (Some n) && js_truthy (Some a)); reflexivity.
Qed.

(** C7 (corrected).  If the accumulated text contains no fenced tool-call
    block, the invocation ends in [Done] with the full text and calls no
    tool; the text is appended as the assistant's turn unless it is
    empty or white space only, in which case nothing is appended. *)
Theorem plain_text_turn :
  forall fuel history input,
  let h1 := (history ++ [{| role := "user"; content := input |}])%list in
  let txt := stream_text (model h1) in
  ~ contains_tool_block parse txt ->
  exists evs,
    on_line parse call_tool model (S fuel) history input
    = Some ((h1 ++ (if String.eqb (js_trim txt) EmptyString then []
                    else [{| role := "assistant"; content := txt |}]))%list, evs)
    /\ Forall (fun e => e = ELogError) evs.
Proof.
  intros fuel history input h1 txt Hno.
  destruct (scan_without_block parse call_tool (model h1) EmptyString Hno)
    as [evs [Hs Hf]].
  exists evs. split; [|exact Hf].
  unfold on_line. fold h1. simpl rounds. rewrite Hs. simpl.
  unfold push_final. fold txt.
  destruct (String.eqb (js_trim txt) EmptyString); simpl.
  - rewrite app_nil_r. reflexivity.
  - reflexivity.
Qed.


(** C10.  When the final text of the round is empty or white space
    only, no assistant turn is appended: the handler leaves the history
    as the model rounds left it. *)
Theorem blank_final_not_appended :
  forall fuel history input h final evs,
  rounds parse call_tool model fuel
    (history ++ [{| role := "user"; content := input |}])%list [] = Some (h, final, evs) ->
  forallb js_ws (list_ascii_of_string final) = true ->
  on_line parse call_tool model fuel history input = Some (h, evs).
Proof.
  intros fuel history input h final evs Hr Hb.
  unfold on_line. rewrite Hr. unfold push_final.
  rewrite (js_trim_blank final Hb). reflexivity.
Qed.

End DetectorLoop.

(** ** A malformed first block *)

Lemma bad_block_next : forall y b a,
  find_sep fence_open (bad_json ++ fence ++ (nl ++ y)) = Some (b, a) ->
  String.length (bad_json ++ fence) <= String.length b.
Proof.
  intros y b a H. simpl in H.
  destruct (find_sep fence_open y) as [[b' a']|]; [|discriminate].
  injection H as <- _. simpl. lia.
Qed.

(** Once a block whose content is not JSON is complete, every further
    check extracts that same content. *)
Lemma fenced_json_bad_block : forall y,
  fenced_json (bad_block ++ y) = Some bad_json.
Proof.
  intros y.
  assert (Hopen : find_sep fence_open (EmptyString ++ fence_open)
                  = Some (EmptyString, EmptyString)) by reflexivity.
  assert (Hclose : find_sep fence (bad_json ++ fence)
                   = Some (bad_json, EmptyString)) by reflexivity.
  pose proof (bad_block_next y) as Hnext.
  assert (Hpq : (bad_block ++ y) ++ EmptyString
                = EmptyString ++ fence_open ++ bad_json ++ fence ++ (nl ++ y)).
  { rewrite sapp_nil_r. unfold bad_block. rewrite !sapp_assoc. reflexivity. }
  assert (Hlen : String.length (EmptyString ++ fence_open ++ bad_json ++ fence)
                 <= String.length (bad_block ++ y)).
  { unfold bad_block. rewrite !slength_app. simpl. lia. }
  eapply fenced_json_after; eassumption.
Qed.

Lemma scan_after_bad_block : forall call_tool ts y,
  scan json_parse call_tool (bad_block ++ y) ts
  = (repeat ELogError (List.length ts), Done (bad_block ++ y ++ stream_text ts)).
Proof.
  intros call_tool ts. induction ts as [|t ts IH]; intros y.
  - simpl. rewrite sapp_nil_r. reflexivity.
  - rewrite scan_cons. rewrite sapp_assoc.
    assert (D : detect json_parse (bad_block ++ y ++ t) = DThrow).
    { unfold detect. rewrite fenced_json_bad_block. reflexivity. }
    rewrite D, (IH (y ++ t)). simpl. rewrite sapp_assoc. reflexivity.
Qed.

(** C5 (code bug).  Once the stream holds a fenced block whose content is
    not JSON, every later check re-reads that first block: each further
    token logs the parse error again, and no later block, valid or not,
    is ever dispatched; the invocation ends in [Done]. *)
Theorem later_block_never_dispatched : forall call_tool ts,
  scan json_parse call_tool EmptyString (bad_block :: ts)
  = (repeat ELogError (S (List.length ts)), Done (bad_block ++ stream_text ts)).
Proof.
  intros call_tool ts. rewrite scan_cons.
  change (EmptyString ++ bad_block) with bad_block.
  assert (D : detect json_parse bad_block = DThrow).
  { unfold detect. rewrite <- (sapp_nil_r bad_block).
    rewrite fenced_json_bad_block. reflexivity. }
  rewrite D. rewrite <- (sapp_nil_r bad_block) at 1.
  rewrite scan_after_bad_block. reflexivity.
Qed.

(** ** The schema adapter *)

Lemma obj_set_fresh : forall A (o : list (string * A)) k v,
  ~ In k (map fst o) -> obj_set o k v = (o ++ [(k, v)])%list.
Proof.
  intros A o k v. induction o as [|[k' w] o IH]; intros Hk; [reflexivity|].
  simpl in *. destruct (String.eqb_spec k k') as [->|Hne].
  - exfalso. apply Hk. left. reflexivity.
  - rewrite IH; [reflexivity|]. intros Hin. apply Hk. right. exact Hin.
Qed.

Lemma convert_props_fresh : forall pfs acc,
  NoDup (map fst pfs) ->
  (forall k, In k (map fst pfs) -> ~ In k (map fst acc)) ->
  Forall (fun kp => exists qs, snd kp = JObj qs) pfs ->
  exists ps, convert_props acc pfs = Some (acc ++ ps)%list /\ Forall2 prop_copied pfs ps.
Proof.
  induction pfs as [|[k p] pfs IH]; intros acc Hnd Hfresh Hobj.
  - exists []. rewrite app_nil_r. split; [reflexivity|constructor].
  - simpl in Hnd. inversion Hnd as [|? ? Hk Hnd']; subst.
    inversion Hobj as [|? ? [qs Hq] Hobj']; subst. simpl in Hq. subst p.
    set (op := {| op_type := assoc_last "type" qs;
                  op_description := if js_truthy (assoc_last "description" qs)
                                    then assoc_last "description" qs else None |}).
    assert (Hc : convert_props acc ((k, JObj qs) :: pfs)
                 = convert_props (obj_set acc k op) pfs) by reflexivity.
    rewrite Hc, obj_set_fresh by (apply Hfresh; left; reflexivity).
    destruct (IH (acc ++ [(k, op)])%list Hnd') as [ps [Hps Hrel]].
    + intros k' Hin. rewrite map_app, in_app_iff. intros [Ha|[Hb|[]]].
      * apply (Hfresh k'); [right; exact Hin|exact Ha].
      * simpl in Hb. subst k'. contradiction.
    + exact Hobj'.
    + exists ((k, op) :: ps). rewrite Hps, <- app_assoc. split; [reflexivity|].
      constructor; [|exact Hrel].
      split; [reflexivity|]. exists qs. repeat split.
Qed.

(** C8 (corrected).  Let [tool] be an object whose [inputSchema] is an
    object, whose [properties] is absent or an object of object-valued
    entries with distinct keys.  The adapter copies [name] and
    [description] verbatim; it emits one entry per declared parameter, in
    order, with only [type] and [description], the latter replaced by
    [undefined] when it is falsy (such as ""); it copies [required] when
    it is truthy (every array is) and puts [] otherwise. *)
Theorem convert_tool_copies : forall fs sfs pfs,
  assoc_last "inputSchema" fs = Some (JObj sfs) ->
  (assoc_last "properties" sfs = None /\ pfs = []) \/
    assoc_last "properties" sfs = Some (JObj pfs) ->
  NoDup (map fst pfs) ->
  Forall (fun kp => exists qs, snd kp = JObj qs) pfs ->
  exists ps,
    convert_tool (JObj fs) =
      Some {| ot_type := "function";
              ot_name := assoc_last "name" fs;
              ot_description := assoc_last "description" fs;
              ot_parameters_type := "object";
              ot_properties := ps;
              ot_required :=
                match assoc_last "required" sfs with
                | Some r => if js_truthy (Some r) then r else JArr []
                | None => JArr []
                end |} /\
    Forall2 prop_copied pfs ps.
Proof.
  intros fs sfs pfs Hs Hp Hnd Hobj.
  assert (Hreq : (if js_truthy (assoc_last "required" sfs)
                  then match assoc_last "required" sfs with
                       | Some r => r | None => JArr [] end
                  else JArr [])
                 = match assoc_last "required" sfs with
                   | Some r => if js_truthy (Some r) then r else JArr []
                   | None => JArr []
                   end)
    by (destruct (assoc_last "required" sfs); reflexivity).
  destruct Hp as [[Hp ->]|Hp].
  - exists []. split; [|constructor].
    unfold convert_tool. simpl js_member. rewrite Hs. simpl js_member.
    rewrite Hp, Hreq. reflexivity.
  - destruct (convert_props_fresh pfs [] Hnd (fun _ _ H => H) Hobj)
      as [ps [Hps Hrel]].
    exists ps. split; [|exact Hrel].
    unfold convert_tool. simpl js_member. rewrite Hs. simpl js_member.
    rewrite Hp, Hreq. simpl js_entries. simpl js_truthy. cbv iota beta.
    rewrite Hps. reflexivity.
Qed.

(** ** Witnesses and counterexamples *)


(** ** Witnesses and counterexamples *)

(** C4: the block with "json\n" after it: sent one character at a time it
    is dispatched; sent as one token, the split cuts at the second
    "```json\n", the first part holds no "```", and nothing is called. *)
Lemma detection_boundary_counterexample :
  scan json_parse (fun _ _ => Some ok_result) EmptyString
       (chars (call_block ++ "json" ++ nl))
  = ([ECall (JStr "x") (JObj [])],
     ToolTurn {| role := "user"; content := "Tool x output:" ++ nl ++ "ok" |}) /\
  scan json_parse (fun _ _ => Some ok_result) EmptyString [call_block ++ "json" ++ nl]
  = ([], Done (call_block ++ "json" ++ nl)).
Proof. split; vm_compute; reflexivity. Qed.

(** C4 (code bug).  A dispatch is not made exactly once per invocation:
    when [callTool] rejects, the rejection is caught by the JSON-parse
    [catch], logged, no error turn is appended, and every later token
    finds the same block and calls the tool again. *)
Lemma rejected_call_dispatched_per_token :
  scan json_parse (fun _ _ => None) EmptyString [call_block; nl; "a"; "b"]
  = ([ECall (JStr "x") (JObj []); ELogError; ECall (JStr "x") (JObj []); ELogError;
      ECall (JStr "x") (JObj []); ELogError; ECall (JStr "x") (JObj []); ELogError],
     Done (call_block ++ nl ++ "a" ++ "b")).
Proof. vm_compute. reflexivity. Qed.

Lemma detection_boundary_insensitive_witness :
  scan json_parse (fun _ _ => Some ok_result) EmptyString (chars call_block)
  = ([ECall (JStr "x") (JObj [])],
     ToolTurn {| role := "user"; content := "Tool x output:" ++ nl ++ "ok" |}).
Proof.
  apply (detection_boundary_insensitive json_parse (fun _ _ => Some ok_result)
           EmptyString call_json EmptyString
           (JObj [("name", JStr "x"); ("arguments", JObj [])])
           (JStr "x") (JObj []) ok_result).
  all: try (vm_compute; reflexivity).
  intros b a' H. vm_compute in H. discriminate.
Defined.

(** C5: the malformed block followed by a valid one. *)
Lemma later_block_never_dispatched_example :
  scan json_parse (fun _ _ => Some ok_result) EmptyString [bad_block; call_block]
  = ([ELogError; ELogError], Done (bad_block ++ call_block)).
Proof. vm_compute. reflexivity. Qed.

(** C6: [name] is present but "", and no tool is called. *)
Lemma empty_name_not_dispatched :
  fenced_json empty_name_block = Some empty_name_json /\
  json_parse empty_name_json = Some (JObj [("name", JStr EmptyString); ("arguments", JObj [])]) /\
  detect json_parse empty_name_block = DNone.
Proof. split; [|split]; vm_compute; reflexivity. Qed.

Lemma detect_requires_truthy_fields_witness :
  detect json_parse (EmptyString ++ call_block) = DCall (JStr "x") (JObj []).
Proof.
  refine (detect_requires_truthy_fields json_parse (fun _ _ => Some ok_result)
            EmptyString call_block [] call_json
            [("name", JStr "x"); ("arguments", JObj [])] _ _);
    vm_compute; reflexivity.
Defined.

(** C7: a reply of white space only contains no block, and no assistant
    turn is appended. *)
Lemma blank_reply_not_appended :
  on_line json_parse (fun _ _ => None) (fun _ => [" "; nl]) 1 [] "hi"
  = Some ([{| role := "user"; content := "hi" |}], []).
Proof. vm_compute. reflexivity. Qed.

Lemma plain_text_turn_witness :
  exists evs,
    on_line json_parse (fun _ _ => None) (fun _ => ["hello"]) 1 [] "hi"
    = Some ([{| role := "user"; content := "hi" |};
             {| role := "assistant"; content := "hello" |}], evs) /\
    Forall (fun e => e = ELogError) evs.
Proof.
  apply (plain_text_turn json_parse (fun _ _ => None) (fun _ => ["hello"]) 0 [] "hi").
  intros [pre [j [post [v [H _]]]]].
  apply (f_equal String.length) in H. rewrite !slength_app in H.
  simpl in H. lia.
Defined.

(** C8: the description "" is replaced by [undefined]. *)
Lemma empty_description_dropped :
  convert_tool empty_desc_tool
  = Some {| ot_type := "function"; ot_name := Some (JStr "t");
            ot_description := None; ot_parameters_type := "object";
            ot_properties :=
              [("p", {| op_type := Some (JStr "string"); op_description := None |})];
            ot_required := JArr [] |}.
Proof. reflexivity. Qed.

Lemma convert_tool_copies_witness :
  exists ps,
    convert_tool (JObj spec_tool) =
      Some {| ot_type := "function"; ot_name := Some (JStr "t");
              ot_description := Some (JStr "T"); ot_parameters_type := "object";
              ot_properties := ps; ot_required := JArr [JStr "a"] |} /\
    Forall2 prop_copied spec_props ps.
Proof.
  apply (convert_tool_copies spec_tool spec_schema spec_props).
  - reflexivity.
  - right. reflexivity.
  - vm_compute. repeat constructor; simpl; intuition discriminate.
  - repeat constructor; eexists; reflexivity.
Defined.



Lemma blank_final_not_appended_witness :
  on_line json_parse (fun _ _ => None) (fun _ => [" "]) 1 [] "hi"
  = Some ([{| role := "user"; content := "hi" |}], []).
Proof.
  apply (blank_final_not_appended json_parse (fun _ _ => None) (fun _ => [" "])
           1 [] "hi" [{| role := "user"; content := "hi" |}] " " []);
    vm_compute; reflexivity.
Defined.

(* ================================================================== *)
(** * Further properties of the code *)

(** ** The client *)

Lemma settle_keeps_settled : forall ps k o j p,
  nth_error ps j = Some p -> p <> Pending -> nth_error (settle k o ps) j = Some p.
Proof.
  induction ps as [|q ps IH]; intros k o j p Hj Hp; [destruct j; discriminate|].
  destruct k as [|k], j as [|j]; simpl in *.
  - injection Hj as ->. destruct p; [contradiction|reflexivity|reflexivity].
  - exact Hj.
  - exact Hj.
  - apply IH; assumption.
Qed.

Lemma settle_noop : forall ps k o,
  nth_error ps k <> Some Pending -> settle k o ps = ps.
Proof.
  induction ps as [|q ps IH]; intros k o H; [reflexivity|].
  destruct k as [|k]; simpl in *.
  - destruct q; [contradiction|reflexivity|reflexivity].
  - rewrite IH by exact H. reflexivity.
Qed.

Lemma client_step_keeps_settled : forall st ev j p,
  nth_error (cl_promises st) j = Some p -> p <> Pending ->
  nth_error (cl_promises (client_step st ev)) j = Some p.
Proof.
  intros st ev j p Hj Hp.
  destruct ev as [m|k e|r|e|]; simpl.
  - rewrite nth_error_app1; [exact Hj|]. apply nth_error_Some. congruence.
  - apply settle_keeps_settled; assumption.
  - destruct (cl_onmessage st); [apply settle_keeps_settled|]; assumption.
  - destruct (cl_onerror st); [apply settle_keeps_settled|]; assumption.
  - exact Hj.
Qed.

Lemma client_run_app : forall st evs1 evs2,
  client_run st (evs1 ++ evs2) = client_run (client_run st evs1) evs2.
Proof. intros. unfold client_run. apply fold_left_app. Qed.

(** A promise settles once: whatever happens afterwards (new requests,
    responses, transport errors, [stop()]), a settled request keeps its
    value or its rejection. *)
Theorem settled_stays_settled : forall evs st j p,
  nth_error (cl_promises st) j = Some p -> p <> Pending ->
  nth_error (cl_promises (client_run st evs)) j = Some p.
Proof.
  induction evs as [|ev evs IH]; intros st j p Hj Hp; [exact Hj|].
  apply IH; [|exact Hp]. apply client_step_keeps_settled; assumption.
Qed.

(** Used one request at a time, the client is correct: each request
    settles with the response that arrives after it, resolved with its
    [result] or rejected with "MCP Error: " and its error message. *)
Theorem one_at_a_time_settles : forall rs st,
  cl_promises (client_run st (one_at_a_time rs))
  = (cl_promises st ++ map (fun mr => outcome_of (snd mr)) rs)%list.
Proof.
  induction rs as [|[m r] rs IH]; intros st.
  - simpl. rewrite app_nil_r. reflexivity.
  - change (one_at_a_time ((m, r) :: rs))
      with ([Send m; Inbound r] ++ one_at_a_time rs)%list.
    rewrite client_run_app, IH. simpl. rewrite settle_last, <- app_assoc.
    reflexivity.
Qed.

(** A message that arrives when the request whose callbacks the transport
    holds has already settled, or before any request was sent, is
    dropped: no promise changes. *)
Theorem late_response_dropped : forall st r,
  match cl_onmessage st with
  | Some k => nth_error (cl_promises st) k <> Some Pending
  | None => True
  end ->
  cl_promises (client_step st (Inbound r)) = cl_promises st.
Proof.
  intros st r H. simpl.
  destruct (cl_onmessage st) as [k|]; [|reflexivity].
  simpl. apply settle_noop. exact H.
Qed.

(** ** Tool turns *)

Lemma map_text_strings : forall cs texts,
  Forall2 (fun c s => exists fs, c = JObj fs /\ assoc_last "text" fs = Some (JStr s))
          cs texts ->
  map_text cs = Some (map (fun s => Some (JStr s)) texts).
Proof.
  induction 1 as [|c s cs texts [fs [-> Ht]] _ IH]; [reflexivity|].
  simpl. rewrite Ht, IH. reflexivity.
Qed.

(** A successful tool result whose [content] items all carry a string
    [text] becomes the user turn "Tool <name> output:", a newline, and the
    texts joined with newlines, in order. *)
Theorem tool_turn_success : forall name fs cs texts,
  js_truthy (assoc_last "isError" fs) = false ->
  assoc_last "content" fs = Some (JArr cs) ->
  Forall2 (fun c s => exists cfs, c = JObj cfs /\ assoc_last "text" cfs = Some (JStr s))
          cs texts ->
  tool_turn name (JObj fs)
  = Some {| role := "user";
            content := "Tool " ++ js_to_string name ++ " output:" ++ nl ++ join nl texts |}.
Proof.
  intros name fs cs texts He Hc Hts.
  unfold tool_turn. simpl. rewrite He, Hc. simpl.
  rewrite (map_text_strings cs texts Hts), map_map. simpl.
  rewrite map_id. reflexivity.
Qed.

(** A tool result with a truthy [isError] becomes the user turn
    "Tool <name> error: " followed by [String(content[0].text)], which
    reads "undefined" when the first item has no [text]; when [content]
    is missing or empty, reading [content[0].text] throws and no turn is
    built. *)
Theorem tool_turn_error : forall name fs,
  js_truthy (assoc_last "isError" fs) = true ->
  (forall cfs rest,
     assoc_last "content" fs = Some (JArr (JObj cfs :: rest)) ->
     tool_turn name (JObj fs)
     = Some {| role := "user";
               content := "Tool " ++ js_to_string name ++ " error: "
                          ++ js_to_string_opt (assoc_last "text" cfs) |}) /\
  (assoc_last "content" fs = None \/ assoc_last "content" fs = Some (JArr []) ->
   tool_turn name (JObj fs) = None).
Proof.
  intros name fs He. unfold tool_turn. simpl. rewrite He. simpl.
  split.
  - intros cfs rest Hc. rewrite Hc. reflexivity.
  - intros [Hc|Hc]; rewrite Hc; reflexivity.
Qed.

(** ** The detector *)

(** A fenced block that parses to [null] makes [jsonContent.name] throw,
    which is caught and logged like a parse error; one that parses to a
    number, string, boolean or array has no [name] and is ignored. *)
Theorem detect_non_object : forall parse s j v,
  fenced_json s = Some j -> parse j = Some v ->
  (v = JNull -> detect parse s = DThrow) /\
  ((forall fs, v <> JObj fs) -> v <> JNull -> detect parse s = DNone).
Proof.
  intros parse s j v F P. unfold detect. rewrite F, P. split.
  - intros ->. reflexivity.
  - intros Hobj Hnull.
    destruct v as [| | | | |fs]; try reflexivity.
    + contradiction.
    + exfalso. exact (Hobj fs eq_refl).
Qed.

Lemma prefix_app_inv : forall x y s,
  String.prefix (x ++ y) s = true -> String.prefix x s = true.
Proof.
  induction x as [|c x IH]; intros y s H; [destruct s; reflexivity|].
  destruct s as [|d s]; simpl in *; [discriminate|].
  destruct (ascii_dec c d); [|discriminate]. apply (IH y). exact H.
Qed.

(** An opener "```json\n" is preceded by a "```" at or before it. *)
Lemma find_sep_open_fence : forall s b a,
  find_sep fence_open s = Some (b, a) ->
  exists b' a', find_sep fence s = Some (b', a') /\ String.length b' <= String.length b.
Proof.
  induction s as [|c s IH]; intros b a H.
  - discriminate.
  - rewrite find_sep_eq in H. rewrite find_sep_eq.
    destruct (String.prefix fence_open (String c s)) eqn:E.
    + assert (Ef : String.prefix fence (String c s) = true)
        by (apply (prefix_app_inv fence ("json" ++ nl)); exact E).
      rewrite Ef. do 2 eexists. split; [reflexivity|]. simpl. lia.
    + destruct (String.prefix fence (String c s)); [do 2 eexists; split; [reflexivity|simpl; lia]|].
      destruct (find_sep fence_open s) as [[b0 a0]|] eqn:E0; [|discriminate].
      injection H as <- <-.
      destruct (IH b0 a0 eq_refl) as [b' [a' [H1 H2]]]. rewrite H1.
      do 2 eexists. split; [reflexivity|]. simpl. lia.
Qed.

(** After a block's closing fence and a newline, no opener can start
    before that fence ends. *)
Lemma block_nl_next : forall J y b a,
  find_sep fence (J ++ fence) = Some (J, EmptyString) ->
  find_sep fence_open (J ++ fence ++ (nl ++ y)) = Some (b, a) ->
  String.length (J ++ fence) <= String.length b.
Proof.
  intros J y b a Hclose H.
  pose proof (find_sep_app _ _ (nl ++ y) _ _ Hclose) as Hf.
  rewrite sapp_assoc in Hf.
  destruct (find_sep_open_fence _ _ _ H) as [b' [a' [Hf' Hle]]].
  rewrite Hf in Hf'. injection Hf' as <- _.
  pose proof (find_sep_spec _ _ _ _ H) as Hs.
  destruct (sapp_split_long b (fence_open ++ a) J (fence ++ (nl ++ y)))
    as [w [-> Hw]]; [symmetry; exact Hs|exact Hle|].
  rewrite !slength_app.
  destruct w as [|c1 [|c2 [|c3 w]]]; simpl in Hw |- *;
    try lia; injection Hw; intros; discriminate.
Qed.

Lemma fenced_json_block_nl : forall pre J y,
  find_sep fence_open (pre ++ fence_open) = Some (pre, EmptyString) ->
  find_sep fence (J ++ fence) = Some (J, EmptyString) ->
  fenced_json (pre ++ fence_open ++ J ++ fence ++ nl ++ y) = Some J.
Proof.
  intros pre J y Hopen Hclose.
  pose proof (fun b a => block_nl_next J y b a Hclose) as Hnext.
  assert (Hpq : (pre ++ fence_open ++ J ++ fence ++ nl ++ y) ++ EmptyString
                = pre ++ fence_open ++ J ++ fence ++ (nl ++ y))
    by (rewrite sapp_nil_r; reflexivity).
  assert (Hlen : String.length (pre ++ fence_open ++ J ++ fence)
                 <= String.length (pre ++ fence_open ++ J ++ fence ++ nl ++ y))
    by (rewrite !slength_app; lia).
  eapply fenced_json_after; eassumption.
Qed.

(** A complete tool-call block followed by a newline stays the block the
    detector finds.  If the call rejects, or its result cannot be turned
    into a turn, the failure is caught and every further token dispatches
    the same call again and logs again; the stream then ends as plain
    text. *)
Theorem failed_call_redispatched : forall parse call_tool pre J v n a ts y,
  find_sep fence_open (pre ++ fence_open) = Some (pre, EmptyString) ->
  find_sep fence (J ++ fence) = Some (J, EmptyString) ->
  parse J = Some v ->
  js_member (Some v) "name" = Some (Some n) ->
  js_member (Some v) "arguments" = Some (Some a) ->
  js_truthy (Some n) && js_truthy (Some a) = true ->
  (forall r, call_tool n a = Some r -> tool_turn n r = None) ->
  scan parse call_tool (pre ++ fence_open ++ J ++ fence ++ nl ++ y) ts
  = (concat (repeat [ECall n a; ELogError] (List.length ts)),
     Done (pre ++ fence_open ++ J ++ fence ++ nl ++ y ++ stream_text ts)).
Proof.
  intros parse call_tool pre J v n a ts.
  induction ts as [|t ts IH]; intros y Hopen Hclose Pj Hn Ha Ht Hc.
  - simpl. rewrite sapp_nil_r. reflexivity.
  - rewrite scan_cons. rewrite !sapp_assoc.
    assert (D : detect parse (pre ++ fence_open ++ J ++ fence ++ nl ++ y ++ t)
                = DCall n a).
    { unfold detect. rewrite fenced_json_block_nl by assumption.
      rewrite Pj, Hn, Ha, Ht. reflexivity. }
    rewrite D.
    rewrite (IH (y ++ t)) by assumption.
    destruct (call_tool n a) as [r|] eqn:Ec.
    + rewrite (Hc r eq_refl). simpl. rewrite !sapp_assoc. reflexivity.
    + simpl. rewrite !sapp_assoc. reflexivity.
Qed.

(** Until the first "```json\n" of the text is followed by a "```", the
    detector parses nothing and calls no tool. *)
Theorem no_detection_before_close : forall parse s,
  (find_sep fence_open s = None \/
   exists b a, find_sep fence_open s = Some (b, a) /\ find_sep fence a = None) ->
  detect parse s = DNone.
Proof.
  intros parse s H. unfold detect.
  destruct (fenced_json s) as [j|] eqn:F; [|reflexivity].
  exfalso. destruct (fenced_json_some _ _ F) as [b [a [k [F1 F2]]]].
  destruct H as [H|[b' [a' [H1 H2]]]]; [congruence|].
  rewrite F1 in H1. injection H1 as <- <-.
  destruct (js_split_head fence_open a fence_open_ne) as [rest [z [Hr [_ Ha]]]].
  rewrite Hr in F2. rewrite Ha in H2.
  rewrite (find_sep_app _ _ z _ _ F2) in H2. discriminate.
Qed.

(** ** The chat loop *)

Lemma tool_turn_report : forall n r tr,
  tool_turn n r = Some tr -> is_tool_report tr.
Proof.
  intros n r tr H. unfold tool_turn in H.
  repeat match type of H with
         | context [match ?x with _ => _ end] => destruct x; try discriminate
         end;
  injection H as <-; split; try reflexivity; eexists; reflexivity.
Qed.

Lemma scan_tool_turn : forall parse call_tool acc toks l tr,
  scan parse call_tool acc toks = (l, ToolTurn tr) -> exists n r, tool_turn n r = Some tr.
Proof.
  intros parse call_tool acc toks. revert acc.
  induction toks as [|t ts IH]; intros acc l tr H; [discriminate|].
  rewrite scan_cons in H.
  destruct (detect parse (acc ++ t)) as [| |n a].
  - eapply IH. exact H.
  - destruct (scan parse call_tool (acc ++ t) ts) as [l' o] eqn:E.
    injection H as _ ->. eapply IH. exact E.
  - destruct (call_tool n a) as [r|].
    + destruct (tool_turn n r) as [tr'|] eqn:Et.
      * injection H as _ <-. exists n, r. exact Et.
      * destruct (scan parse call_tool (acc ++ t) ts) as [l' o] eqn:E.
        injection H as _ ->. eapply IH. exact E.
    + destruct (scan parse call_tool (acc ++ t) ts) as [l' o] eqn:E.
      injection H as _ ->. eapply IH. exact E.
Qed.

Lemma rounds_history : forall parse call_tool model fuel h log h' final evs,
  rounds parse call_tool model fuel h log = Some (h', final, evs) ->
  exists ts, h' = (h ++ ts)%list /\ Forall is_tool_report ts.
Proof.
  intros parse call_tool model fuel.
  induction fuel as [|f IH]; intros h log h' final evs H; [discriminate|].
  simpl in H.
  destruct (scan parse call_tool EmptyString (model h)) as [l o] eqn:E.
  destruct o as [fc|tr].
  - injection H as <- _ _. exists []. rewrite app_nil_r. split; constructor.
  - destruct (IH _ _ _ _ _ H) as [ts [-> Hts]].
    exists (tr :: ts). rewrite <- app_assoc. split; [reflexivity|].
    constructor; [|exact Hts].
    destruct (scan_tool_turn _ _ _ _ _ _ E) as [n [r Ht]].
    exact (tool_turn_report _ _ _ Ht).
Qed.

(** One line typed by the user extends the history, never rewrites it:
    the user's turn, then the tool reports of the rounds in order, then
    at most one assistant turn, whose text is not blank. *)
Theorem on_line_history : forall parse call_tool model fuel h input h' evs,
  on_line parse call_tool model fuel h input = Some (h', evs) ->
  exists ts final,
    h' = (h ++ [{| role := "user"; content := input |}] ++ ts ++ final)%list /\
    Forall is_tool_report ts /\
    (final = [] \/
     exists txt, final = [{| role := "assistant"; content := txt |}] /\
                 js_trim txt <> EmptyString).
Proof.
  intros parse call_tool model fuel h input h' evs H.
  unfold on_line in H.
  destruct (rounds parse call_tool model fuel
              (h ++ [{| role := "user"; content := input |}])%list [])
    as [[[h1 fc] evs1]|] eqn:E; [|discriminate].
  injection H as <- _.
  destruct (rounds_history _ _ _ _ _ _ _ _ _ E) as [ts [-> Hts]].
  unfold push_final.
  destruct (String.eqb (js_trim fc) EmptyString) eqn:Eb; simpl.
  - exists ts, []. rewrite !app_nil_r, <- app_assoc. split; [reflexivity|].
    split; [exact Hts|left; reflexivity].
  - exists ts, [{| role := "assistant"; content := fc |}].
    rewrite <- !app_assoc. split; [reflexivity|]. split; [exact Hts|].
    right. exists fc. split; [reflexivity|].
    apply String.eqb_neq. exact Eb.
Qed.

(** ** The schema adapter *)



Lemma convert_props_null : forall entries acc k,
  In (k, JNull) entries -> convert_props acc entries = None.
Proof.
  induction entries as [|[k' p] entries IH]; intros acc k H; [destruct H|].
  destruct H as [H|H].
  - injection H as -> ->. reflexivity.
  - simpl. destruct (convert_prop p); [|reflexivity]. eapply IH. exact H.
Qed.

(** Converting a tool throws when the tool is [null] or [undefined], when
    it is an object whose [inputSchema] is missing or [null], and when one
    of its declared parameters is [null]. *)
Theorem convert_tool_throws :
  convert_tool JNull = None /\
  (forall fs, assoc_last "inputSchema" fs = None \/
              assoc_last "inputSchema" fs = Some JNull ->
     convert_tool (JObj fs) = None) /\
  (forall fs sfs pfs k,
     assoc_last "inputSchema" fs = Some (JObj sfs) ->
     assoc_last "properties" sfs = Some (JObj pfs) ->
     In (k, JNull) pfs ->
     convert_tool (JObj fs) = None).
Proof.
  split; [reflexivity|]. split.
  - intros fs [H|H]; unfold convert_tool; simpl; rewrite H; reflexivity.
  - intros fs sfs pfs k Hs Hp Hk. unfold convert_tool. simpl.
    rewrite Hs. simpl. rewrite Hp. simpl.
    rewrite (convert_props_null pfs [] k Hk). reflexivity.
Qed.

(** ** Witnesses of the further properties *)

Lemma settled_stays_settled_witness :
  nth_error
    (cl_promises
       (client_run
          (client_run client_init
             [Send listTools_msg;
              Inbound {| rs_id := 1; rs_body := BResult (JStr "tools") |}])
          [Send (callTool_msg (JStr "x") (JObj []));
           Inbound {| rs_id := 1; rs_body := BError "late" |};
           TransportError "closed"; Stop])) 0
  = Some (Resolved (JStr "tools")).
Proof.
  apply (settled_stays_settled
           [Send (callTool_msg (JStr "x") (JObj []));
            Inbound {| rs_id := 1; rs_body := BError "late" |};
            TransportError "closed"; Stop]
           (client_run client_init
              [Send listTools_msg;
               Inbound {| rs_id := 1; rs_body := BResult (JStr "tools") |}])
           0 (Resolved (JStr "tools"))).
  - reflexivity.
  - discriminate.
Defined.

Lemma late_response_dropped_witness :
  cl_promises
    (client_step
       (client_run client_init
          [Send listTools_msg;
           Inbound {| rs_id := 1; rs_body := BResult (JStr "tools") |}])
       (Inbound {| rs_id := 1; rs_body := BResult (JStr "again") |}))
  = [Resolved (JStr "tools")].
Proof.
  apply (late_response_dropped
           (client_run client_init
              [Send listTools_msg;
               Inbound {| rs_id := 1; rs_body := BResult (JStr "tools") |}])
           {| rs_id := 1; rs_body := BResult (JStr "again") |}).
  simpl. discriminate.
Defined.

Lemma tool_turn_success_witness :
  tool_turn (JStr "x")
    (JObj [("isError", JBool false);
           ("content", JArr [JObj [("type", JStr "text"); ("text", JStr "a")];
                             JObj [("text", JStr "b")]])])
  = Some {| role := "user";
            content := "Tool " ++ js_to_string (JStr "x") ++ " output:" ++ nl
                       ++ join nl ["a"; "b"] |}.
Proof.
  apply (tool_turn_success (JStr "x")
           [("isError", JBool false);
            ("content", JArr [JObj [("type", JStr "text"); ("text", JStr "a")];
                              JObj [("text", JStr "b")]])]
           [JObj [("type", JStr "text"); ("text", JStr "a")]; JObj [("text", JStr "b")]]
           ["a"; "b"]).
  - reflexivity.
  - reflexivity.
  - constructor; [eexists; split; reflexivity|].
    constructor; [eexists; split; reflexivity|].
    constructor.
Defined.

Lemma tool_turn_error_witness :
  tool_turn (JStr "x")
    (JObj [("isError", JBool true); ("content", JArr [JObj [("text", JStr "boom")]])])
  = Some {| role := "user";
            content := "Tool " ++ js_to_string (JStr "x") ++ " error: "
                       ++ js_to_string_opt (assoc_last "text" [("text", JStr "boom")]) |} /\
  tool_turn (JStr "x") (JObj [("isError", JBool true); ("content", JArr [])]) = None.
Proof.
  split.
  - refine (proj1 (tool_turn_error (JStr "x")
                     [("isError", JBool true);
                      ("content", JArr [JObj [("text", JStr "boom")]])] _)
                  [("text", JStr "boom")] [] _); reflexivity.
  - refine (proj2 (tool_turn_error (JStr "x")
                     [("isError", JBool true); ("content", JArr [])] _) _);
      [reflexivity|right; reflexivity].
Defined.

Lemma detect_non_object_witness :
  detect json_parse (fence_open ++ "null" ++ nl ++ fence) = DThrow /\
  detect json_parse (fence_open ++ "5" ++ nl ++ fence) = DNone.
Proof.
  split.
  - refine (proj1 (detect_non_object json_parse (fence_open ++ "null" ++ nl ++ fence)
                     ("null" ++ nl) JNull _ _) _); vm_compute; reflexivity.
  - refine (proj2 (detect_non_object json_parse (fence_open ++ "5" ++ nl ++ fence)
                     ("5" ++ nl) (JNum 5) _ _) _ _).
    + vm_compute. reflexivity.
    + vm_compute. reflexivity.
    + intros fs. discriminate.
    + discriminate.
Defined.

Lemma failed_call_redispatched_witness :
  scan json_parse (fun _ _ => None)
    (EmptyString ++ fence_open ++ call_json ++ fence ++ nl ++ EmptyString) ["a"; "b"]
  = (concat (repeat [ECall (JStr "x") (JObj []); ELogError] 2),
     Done (EmptyString ++ fence_open ++ call_json ++ fence ++ nl ++ EmptyString
           ++ stream_text ["a"; "b"])).
Proof.
  apply (failed_call_redispatched json_parse (fun _ _ => None) EmptyString call_json
           (JObj [("name", JStr "x"); ("arguments", JObj [])]) (JStr "x") (JObj [])
           ["a"; "b"] EmptyString).
  - reflexivity.
  - vm_compute. reflexivity.
  - vm_compute. reflexivity.
  - reflexivity.
  - reflexivity.
  - reflexivity.
  - intros r Hr. discriminate.
Defined.

Lemma no_detection_before_close_witness :
  detect json_parse (fence_open ++ "{") = DNone.
Proof.
  apply (no_detection_before_close json_parse (fence_open ++ "{")).
  right. exists EmptyString, "{". split; reflexivity.
Defined.

Lemma on_line_history_witness :
  exists ts final,
    [{| role := "user"; content := "hi" |};
     {| role := "user"; content := "Tool x output:" ++ nl ++ "ok" |};
     {| role := "assistant"; content := "done" |}]
    = ([] ++ [{| role := "user"; content := "hi" |}] ++ ts ++ final)%list /\
    Forall is_tool_report ts /\
    (final = [] \/
     exists txt, final = [{| role := "assistant"; content := txt |}] /\
                 js_trim txt <> EmptyString).
Proof.
  apply (on_line_history json_parse (fun _ _ => Some ok_result) line_model 3 [] "hi"
           _ [ECall (JStr "x") args_a1]).
  vm_compute. reflexivity.
Defined.
